(** * KTFF_ELO: the Elo rating engine of [streamlit_app.py]

    A shallow embedding of the two core functions of the application,
    [clean_team_name] (the name normaliser) and [calculate_elo_ratings]
    (the rating engine), with the helper functions [expected_score] and
    [update_elo].

    Modelling choices.
    - A Python [str] is a list of Unicode code points ([list N]); the
      builtins [str.replace] and [str.strip] are embedded as the functions
      [replace] and [strip] below.
    - The two dictionaries [elo_ratings] and [elo_history] are finite maps
      keyed by the normalised name.
    - Ratings are Python floats computed with [math.pow]; they are embedded
      as real numbers, so every arithmetic statement below is a statement
      of exact arithmetic (rounding and overflow of binary64 are outside of
      the model). The theorems about the engine use the arithmetic only
      through the shape of the formulas and through the value 0.5 of the
      expected score of two equal ratings; what rounding does to the
      values is not modelled.
    - A score read from the JSON document is any JSON value; the embedding
      keeps integers, strings and [null], which is enough to exhibit all
      three behaviours of [home_score > away_score]: a number comparison, a
      lexicographic comparison and a [TypeError].
    - Exceptions are explicit: the engine returns an [outcome], either the
      pair of dictionaries or the exception raised together with the
      dictionaries as they were when it was raised. *)

From Stdlib Require Import Reals Lra ZArith String Ascii.
From stdpp Require Import base gmap list strings.

Open Scope R_scope.

(* ===================================================================== *)
(** * Part I: the embedding                                               *)
(* ===================================================================== *)

(** ** Python strings *)

Abbreviation str := (list N).

(** An ASCII literal as a Python string. *)
Definition py (s : string) : str :=
  map N_of_ascii (list_ascii_of_string s).

(** [s.startswith(old)] *)
Fixpoint startswith (s old : str) : bool :=
  match old, s with
  | [], _ => true
  | _ :: _, [] => false
  | c :: old', d :: s' => (c =? d)%N && startswith s' old'
  end.

(** [old in s] *)
Fixpoint contains (s old : str) : bool :=
  startswith s old ||
  match s with
  | [] => false
  | _ :: s' => contains s' old
  end.

(** The scan of [str.replace] for a non-empty [old]: left to right, an
    occurrence of [old] at the current position is replaced by [new] and
    the scan resumes after it ([skip] counts the characters of the
    occurrence still to be passed over). *)
Fixpoint replace_from (old new : str) (skip : nat) (s : str) : str :=
  match s with
  | [] => []
  | c :: s' =>
      match skip with
      | S k => replace_from old new k s'
      | O =>
          if startswith s old
          then new ++ replace_from old new (length old - 1) s'
          else c :: replace_from old new 0 s'
      end
  end.

(** [s.replace(old, new)] *)
Definition replace (s old new : str) : str :=
  match old with
  | [] => new ++ flat_map (λ c, c :: new) s
  | _ :: _ => replace_from old new 0 s
  end.

(** [c.isspace()] for one code point: the characters [str.strip()] removes. *)
Definition isspace (c : N) : bool :=
  ((9 <=? c) && (c <=? 13) || (28 <=? c) && (c <=? 32)
   || (c =? 133) || (c =? 160) || (c =? 5760)
   || (8192 <=? c) && (c <=? 8202)
   || (c =? 8232) || (c =? 8233) || (c =? 8239) || (c =? 8287)
   || (c =? 12288))%N.

Fixpoint lstrip (s : str) : str :=
  match s with
  | [] => []
  | c :: s' => if isspace c then lstrip s' else s
  end.

Definition rstrip (s : str) : str := reverse (lstrip (reverse s)).

(** [s.strip()] *)
Definition strip (s : str) : str := rstrip (lstrip s).

(** ** [clean_team_name] *)

Definition prefixes : list str :=
  [ py "GA" ++ [220%N] ++ py " ";
    py "DND L. ";
    py "Miracle ";
    py "China Bazaar ";
    py "Treme" ++ [351%N] ++ py "eli H. " ].

Definition suffixes : list str :=
  [ py " TSK"; py " GSK"; py " SK"; py " DSK"; py " YSK"; py " GBSK";
    py " " ++ [350%N] ++ py "HSK";
    py " " ++ [304%N] ++ py "YSK";
    py " KKSK" ].

Definition clean_team_name (team_name : str) : str :=
  let cleaned := team_name in
  let cleaned :=
    fold_left (λ cleaned prefix, replace cleaned prefix []) prefixes cleaned in
  let cleaned :=
    fold_left (λ cleaned suffix, replace cleaned suffix []) suffixes cleaned in
  strip cleaned.

Arguments clean_team_name : simpl never.

(** ** The normaliser as the specification words it *)

(** [old] occurs in [s] at position [j]: exact equality of code points. *)
Definition occurs_at (old s : str) (j : nat) : Prop :=
  take (length old) (drop j s) = old.

(** Position [i] of [s] lies inside an occurrence of [old]. *)
Definition covered (old s : str) (i : nat) : Prop :=
  Exists (λ j, (i < j + length old)%nat ∧ occurs_at old s j) (seq 0 (S i)).

#[global] Instance covered_dec old s i : Decision (covered old s i).
Proof. unfold covered, occurs_at. apply _. Defined.

(** The characters of [t], which sit at positions [k], [k+1], ... of [s],
    without those that lie inside an occurrence of [old] in [s]. *)
Fixpoint keep_uncovered (old s : str) (k : nat) (t : str) : str :=
  match t with
  | [] => []
  | c :: t' =>
      (if decide (covered old s k) then [] else [c])
      ++ keep_uncovered old s (S k) t'
  end.

(** [s] with every occurrence of [old] deleted. *)
Definition delete_occurrences (old s : str) : str :=
  keep_uncovered old s 0 s.

(** [t] is [s] without its leading and trailing whitespace. *)
Definition trimmed (s t : str) : Prop :=
  ∃ l r, s = l ++ t ++ r ∧
    Forall (λ c, isspace c = true) l ∧
    Forall (λ c, isspace c = true) r ∧
    (∀ c, head t = Some c → isspace c = false) ∧
    (∀ c, last t = Some c → isspace c = false).

(** No proper suffix of [old] is a prefix of it: two occurrences of [old]
    never overlap. *)
Definition border_free (old : str) : Prop :=
  ∀ d, (0 < d < length old)%nat → take (length old - d) old ≠ drop d old.

Definition border_freeb (old : str) : bool :=
  forallb (λ d, negb (bool_decide (take (length old - d) old = drop d old)))
    (seq 1 (length old - 1)).

(** The name contains none of the listed sponsor substrings. *)
Definition contains_none_listed (x : str) : Prop :=
  ∀ old, old ∈ prefixes ++ suffixes → contains x old = false.

Definition contains_none_listedb (x : str) : bool :=
  forallb (λ old, negb (contains x old)) (prefixes ++ suffixes).

(** ** The Elo formulas *)

Definition expected_score (rating_a rating_b : R) : R :=
  1 / (1 + Rpower 10 ((rating_b - rating_a) / 400)).

Definition update_elo (rating_a rating_b actual_score_a : R) (k : R) : R * R :=
  let expected_a := expected_score rating_a rating_b in
  let new_rating_a := rating_a + k * (actual_score_a - expected_a) in
  let new_rating_b :=
    rating_b + k * ((1 - actual_score_a) - (1 - expected_a)) in
  (new_rating_a, new_rating_b).

(** The default value of the parameter [k] of [update_elo]. *)
Definition default_k : R := 32.

(** ** Values read from the JSON document *)

(** A score as [json.load] delivers it. *)
Inductive pyval :=
  | PyInt (n : Z)
  | PyStr (s : str)
  | PyNone.

(** The order of Python strings: lexicographic on code points. *)
Fixpoint str_ltb (a b : str) : bool :=
  match a, b with
  | _, [] => false
  | [], _ :: _ => true
  | c :: a', d :: b' => (c <? d)%N || (c =? d)%N && str_ltb a' b'
  end.

(** [a > b]; [None] stands for the [TypeError] of an unsupported
    comparison. *)
Definition py_gt (a b : pyval) : option bool :=
  match a, b with
  | PyInt x, PyInt y => Some (y <? x)%Z
  | PyStr x, PyStr y => Some (str_ltb y x)
  | _, _ => None
  end.

(** [a == b] never raises. *)
Definition py_eq (a b : pyval) : bool :=
  match a, b with
  | PyInt x, PyInt y => (x =? y)%Z
  | PyStr x, PyStr y => bool_decide (x = y)
  | PyNone, PyNone => true
  | _, _ => false
  end.

(** A match record: the two names are always there, a score may be absent
    (the key is missing from the dictionary). *)
Record match_record := {
  home_team : str;
  away_team : str;
  home_score : option pyval;
  away_score : option pyval
}.

(** One element of the input list: the weeks dictionary is kept in its
    iteration order. *)
Record season_data := {
  season : str;
  weeks : list (str * list match_record)
}.

(** ** The rating engine *)

(** The two dictionaries of [calculate_elo_ratings]. *)
Record state := {
  elo_ratings : gmap str R;
  elo_history : gmap str (list (str * R))
}.

Inductive exn := TypeError | KeyError.

Inductive outcome :=
  | Done (st : state)
  | Raised (e : exn) (st : state).

Definition outcome_state (o : outcome) : state :=
  match o with
  | Done st => st
  | Raised _ st => st
  end.

Definition initial_state : state :=
  {| elo_ratings := ∅; elo_history := ∅ |}.

(** [f"{season} - {week}"] *)
Definition timestamp_of (season week : str) : str :=
  season ++ py " - " ++ week.

(** Lines 47-49 (and 50-52): the guarded initialisation of one team. *)
Definition seed (team timestamp : str) (st : state) : state :=
  match elo_ratings st !! team with
  | Some _ => st
  | None =>
      {| elo_ratings := <[team := 1500]> (elo_ratings st);
         elo_history := <[team := [(timestamp, 1500)]]> (elo_history st) |}
  end.

(** Line 54: [1 if home_score > away_score else 0.5 if home_score ==
    away_score else 0]; [None] when the comparison raises. *)
Definition actual_score_of (home_score away_score : pyval) : option R :=
  match py_gt home_score away_score with
  | None => None
  | Some true => Some 1
  | Some false => Some (if py_eq home_score away_score then 0.5 else 0)
  end.

(** [elo_history[team].append(entry)] *)
Definition history_append (team : str) (entry : str * R)
    (h : gmap str (list (str * R))) : option (gmap str (list (str * R))) :=
  match h !! team with
  | Some l => Some (<[team := l ++ [entry]]> h)
  | None => None
  end.

(** The body of the innermost loop (lines 39-62). *)
Definition process_match (timestamp : str) (st : state) (m : match_record)
    : outcome :=
  match home_score m, away_score m with
  | Some home_score, Some away_score =>
      let home_team := clean_team_name (home_team m) in
      let away_team := clean_team_name (away_team m) in
      let st := seed home_team timestamp st in
      let st := seed away_team timestamp st in
      match actual_score_of home_score away_score with
      | None => Raised TypeError st
      | Some actual_score =>
          match elo_ratings st !! home_team, elo_ratings st !! away_team with
          | Some rating_home, Some rating_away =>
              let '(new_home_elo, new_away_elo) :=
                update_elo rating_home rating_away actual_score default_k in
              let ratings :=
                <[away_team := new_away_elo]>
                  (<[home_team := new_home_elo]> (elo_ratings st)) in
              match history_append home_team (timestamp, new_home_elo)
                      (elo_history st) with
              | None =>
                  Raised KeyError
                    {| elo_ratings := ratings; elo_history := elo_history st |}
              | Some h1 =>
                  match history_append away_team (timestamp, new_away_elo) h1
                  with
                  | None =>
                      Raised KeyError
                        {| elo_ratings := ratings; elo_history := h1 |}
                  | Some h2 =>
                      Done {| elo_ratings := ratings; elo_history := h2 |}
                  end
              end
          | _, _ => Raised KeyError st
          end
      end
  | _, _ => Done st
  end.

(** [for match in matches] *)
Fixpoint process_matches (timestamp : str) (st : state)
    (matches : list match_record) : outcome :=
  match matches with
  | [] => Done st
  | m :: matches' =>
      match process_match timestamp st m with
      | Done st' => process_matches timestamp st' matches'
      | Raised e st' => Raised e st'
      end
  end.

(** [for week, matches in weeks.items()] *)
Fixpoint process_weeks (season : str) (st : state)
    (weeks : list (str * list match_record)) : outcome :=
  match weeks with
  | [] => Done st
  | (week, matches) :: weeks' =>
      match process_matches (timestamp_of season week) st matches with
      | Done st' => process_weeks season st' weeks'
      | Raised e st' => Raised e st'
      end
  end.

(** [for season_data in data] *)
Fixpoint process_seasons (st : state) (data : list season_data) : outcome :=
  match data with
  | [] => Done st
  | season_data :: data' =>
      match process_weeks (season season_data) st (weeks season_data) with
      | Done st' => process_seasons st' data'
      | Raised e st' => Raised e st'
      end
  end.

Definition calculate_elo_ratings (data : list season_data) : outcome :=
  process_seasons initial_state data.

(** ** The traversal seen as one sequence *)

(** The matches of the data set in traversal order (season list order, then
    week order, then match list order), each with its timestamp label. *)
Definition events (data : list season_data) : list (str * match_record) :=
  flat_map
    (λ sd, flat_map
             (λ wk, map (λ m, (timestamp_of (season sd) (fst wk), m)) (snd wk))
             (weeks sd))
    data.

(** The fold of [process_match] over a sequence of matches. *)
Fixpoint run (st : state) (evs : list (str * match_record)) : outcome :=
  match evs with
  | [] => Done st
  | (timestamp, m) :: evs' =>
      match process_match timestamp st m with
      | Done st' => run st' evs'
      | Raised e st' => Raised e st'
      end
  end.

(** Where the engine stands after the first [n] matches of the traversal. *)
Definition state_after (data : list season_data) (n : nat) : outcome :=
  run initial_state (take n (events data)).

(** ** Notions used to state the properties of the engine *)

(** Both scores present. *)
Definition completed (m : match_record) : Prop :=
  is_Some (home_score m) ∧ is_Some (away_score m).

(** A completed match one of whose normalised names is [team]. *)
Definition involves (team : str) (m : match_record) : Prop :=
  completed m ∧
  (clean_team_name (home_team m) = team ∨
   clean_team_name (away_team m) = team).

(** The rating a team enters a match with: its stored rating, or the
    initial 1500 when the match is its first. *)
Definition current_rating (st : state) (team : str) : R :=
  default 1500 (elo_ratings st !! team).

(** The history a team enters a match with, the baseline entry included
    when the match is its first. *)
Definition history_before (timestamp : str) (st : state) (team : str)
    : list (str * R) :=
  default [(timestamp, 1500)] (elo_history st !! team).

(** The states the loop can be in between two matches. *)
Inductive reachable : state → Prop :=
  | reachable_initial : reachable initial_state
  | reachable_step st timestamp m st' :
      reachable st →
      process_match timestamp st m = Done st' →
      reachable st'.

(** The stored rating of every team is the rating of the last entry of
    its history. *)
Definition rating_is_last_entry (st : state) : Prop :=
  ∀ team r, elo_ratings st !! team = Some r →
    ∃ h ts, elo_history st !! team = Some (h ++ [(ts, r)]).

(** The two dictionaries have the same keys. *)
Definition same_teams (st : state) : Prop :=
  ∀ team, elo_ratings st !! team = None ↔ elo_history st !! team = None.


(** No third team is touched. *)
Definition others_unchanged (timestamp : str) (st : state) (m : match_record)
    : Prop :=
  ∀ team,
    team ≠ clean_team_name (home_team m) →
    team ≠ clean_team_name (away_team m) →
    let st' := outcome_state (process_match timestamp st m) in
    elo_ratings st' !! team = elo_ratings st !! team ∧
    elo_history st' !! team = elo_history st !! team.




(** The invariant of the loop. *)
Definition inv (st : state) : Prop := rating_is_last_entry st ∧ same_teams st.

(** ** Sample inputs *)

Definition ts_2024_1 : str := timestamp_of (py "2024") (py "1").

(** Foo at home against Bar, with the given integer scores. *)
Definition foo_vs_bar (h a : Z) : match_record :=
  {| home_team := py "Foo"; away_team := py "Bar";
     home_score := Some (PyInt h); away_score := Some (PyInt a) |}.

(** Two raw names of the same team: "Foo" against the sponsored name
    [GA\u00dc Foo TSK], 2-1. *)
Definition foo_vs_sponsored_foo : match_record :=
  {| home_team := py "Foo";
     away_team := py "GA" ++ [220%N] ++ py " Foo TSK";
     home_score := Some (PyInt 2); away_score := Some (PyInt 1) |}.

(** A fixture that has not been played yet. *)
Definition foo_vs_bar_unplayed : match_record :=
  {| home_team := py "Foo"; away_team := py "Bar";
     home_score := None; away_score := None |}.

(** One season, one week, one match. *)
Definition single_match_data (m : match_record) : list season_data :=
  [ {| season := py "2024"; weeks := [(py "1", [m])] |} ].

(** ** Further notions about what the engine returns *)

(** Python can order the two scores of every completed match of the
    sequence. *)
Definition comparable_scores (evs : list (str * match_record)) : Prop :=
  ∀ ts m hs as_, (ts, m) ∈ evs →
    home_score m = Some hs → away_score m = Some as_ →
    py_gt hs as_ ≠ None.

(** The labels one match adds to the history of [team]: its timestamp once
    for each side of a completed match that [team] plays. *)
Definition side_labels (team : str) (e : str * match_record) : list str :=
  match home_score e.2, away_score e.2 with
  | Some _, Some _ =>
      (if decide (clean_team_name (home_team e.2) = team) then [e.1] else [])
      ++
      (if decide (clean_team_name (away_team e.2) = team) then [e.1] else [])
  | _, _ => []
  end.

Definition appearance_labels (team : str) (evs : list (str * match_record))
    : list str :=
  flat_map (side_labels team) evs.

(** ** [create_plot] *)

(** The arguments of one [go.Scatter] trace. *)
Record scatter := {
  scatter_x : list str;
  scatter_y : list R;
  scatter_mode : str;
  scatter_name : str;
  scatter_hovertemplate : str;
  scatter_visible : bool
}.

Definition all_teams : str := py "All Teams".

(** [timestamps, ratings = zip( *history )]: for an empty history [zip]
    yields nothing and the unpacking raises [ValueError] ([None]). *)
Definition unzip_history (history : list (str * R))
    : option (list str * list R) :=
  match history with
  | [] => None
  | _ :: _ => Some (map fst history, map snd history)
  end.

(** The loop of [create_plot] over [elo_history.items()]: [fig] is the list
    of traces added so far by [fig.add_trace]. *)
Fixpoint add_traces (fig : list scatter)
    (items : list (str * list (str * R))) (selected_team : str)
    : option (list scatter) :=
  match items with
  | [] => Some fig
  | (team, history) :: items' =>
      match unzip_history history with
      | None => None
      | Some (timestamps, ratings) =>
          let visible :=
            if bool_decide (selected_team = all_teams)
               || bool_decide (selected_team = team)
            then true else false in
          add_traces
            (fig ++ [ {| scatter_x := timestamps;
                         scatter_y := ratings;
                         scatter_mode := py "lines+markers";
                         scatter_name := team;
                         scatter_hovertemplate :=
                           py "%{x}<br>Elo: %{y:.0f}<extra></extra>";
                         scatter_visible := visible |} ])
            items' selected_team
      end
  end.

(** The traces of the figure [create_plot] returns ([update_layout] only
    sets constants of the layout and is left out); [items] is
    [elo_history.items()]. *)
Definition create_plot (items : list (str * list (str * R)))
    (selected_team : str) : option (list scatter) :=
  add_traces [] items selected_team.

(* ===================================================================== *)
(** * Part II: properties                                                 *)
(* ===================================================================== *)

(** Reduction of the projections of a state and of pairs, without
    unfolding the map operations. *)
Ltac simp_goal :=
  cbv beta iota zeta;
  cbn [elo_ratings elo_history outcome_state fst snd app run].
Tactic Notation "simp" := simp_goal.
Tactic Notation "simp" "in" hyp(H) :=
  cbv beta iota zeta in H;
  cbn [elo_ratings elo_history outcome_state fst snd app run] in H.
Tactic Notation "simp" "in" "*" :=
  cbv beta iota zeta in *;
  cbn [elo_ratings elo_history outcome_state fst snd app run] in *.

(** ** The loops are one fold over the traversal *)

Section Traversal.

Lemma run_app st evs1 evs2 :
  run st (evs1 ++ evs2) =
  match run st evs1 with
  | Done st' => run st' evs2
  | Raised e st' => Raised e st'
  end.
Proof.
  revert st. induction evs1 as [|[ts m] evs1 IH]; intros st; simpl; [done|].
  destruct (process_match ts st m); [apply IH | done].
Qed.

Lemma process_matches_run ts st ms :
  process_matches ts st ms = run st (map (λ m, (ts, m)) ms).
Proof.
  revert st. induction ms as [|m ms IH]; intros st; simpl; [done|].
  destruct (process_match ts st m); [apply IH | done].
Qed.

Lemma process_weeks_run s st ws :
  process_weeks s st ws =
  run st (flat_map (λ wk, map (λ m, (timestamp_of s (fst wk), m)) (snd wk)) ws).
Proof.
  revert st. induction ws as [|[w ms] ws IH]; intros st; simpl; [done|].
  rewrite run_app, <- process_matches_run.
  destruct (process_matches _ st ms); [apply IH | done].
Qed.

Lemma process_seasons_run st data :
  process_seasons st data = run st (events data).
Proof.
  revert st. induction data as [|sd data IH]; intros st; simpl; [done|].
  unfold events; simpl. rewrite run_app, <- process_weeks_run.
  destruct (process_weeks _ st _); [apply IH | done].
Qed.

Lemma calculate_elo_ratings_run data :
  calculate_elo_ratings data = run initial_state (events data).
Proof. apply process_seasons_run. Qed.

Lemma state_after_all data :
  state_after data (length (events data)) = calculate_elo_ratings data.
Proof.
  unfold state_after. by rewrite firstn_all, calculate_elo_ratings_run.
Qed.

End Traversal.

(** ** Seeding *)

Section Seeding.

Implicit Types (st : state) (team t u ts : str).

Lemma inv_initial : inv initial_state.
Proof.
  split.
  - intros t r H. simpl in H. by rewrite lookup_empty in H.
  - intros t. simpl. by rewrite !lookup_empty.
Qed.

Lemma seed_ratings_self t ts st :
  elo_ratings (seed t ts st) !! t = Some (current_rating st t).
Proof.
  unfold seed, current_rating.
  destruct (elo_ratings st !! t) as [r|] eqn:E; simpl.
  - done.
  - by rewrite lookup_insert_eq.
Qed.

Lemma seed_ratings_ne t u ts st :
  u ≠ t → elo_ratings (seed t ts st) !! u = elo_ratings st !! u.
Proof.
  intros Hne. unfold seed.
  destruct (elo_ratings st !! t); simpl; [done|].
  by rewrite lookup_insert_ne.
Qed.

Lemma seed_history_ne t u ts st :
  u ≠ t → elo_history (seed t ts st) !! u = elo_history st !! u.
Proof.
  intros Hne. unfold seed.
  destruct (elo_ratings st !! t); simpl; [done|].
  by rewrite lookup_insert_ne.
Qed.

Lemma current_rating_seed t u ts st :
  current_rating (seed t ts st) u = current_rating st u.
Proof.
  unfold current_rating at 1. destruct (decide (u = t)) as [->|Hne].
  - by rewrite seed_ratings_self.
  - by rewrite seed_ratings_ne.
Qed.

Lemma seed_history_self t ts st :
  inv st → elo_history (seed t ts st) !! t = Some (history_before ts st t).
Proof.
  intros [Hlast Hsame]. unfold seed, history_before.
  destruct (elo_ratings st !! t) as [r|] eqn:E; simpl.
  - destruct (Hlast _ _ E) as (h & ts' & ->). done.
  - rewrite lookup_insert_eq. apply Hsame in E. by rewrite E.
Qed.

Lemma history_before_seed t u ts st :
  inv st → history_before ts (seed t ts st) u = history_before ts st u.
Proof.
  intros Hinv. unfold history_before at 1. destruct (decide (u = t)) as [->|Hne].
  - by rewrite seed_history_self.
  - by rewrite seed_history_ne.
Qed.

Lemma seed_inv t ts st : inv st → inv (seed t ts st).
Proof.
  intros [Hlast Hsame]. unfold seed.
  destruct (elo_ratings st !! t) as [r|] eqn:E; [done|].
  split.
  - intros u r'. simpl. destruct (decide (u = t)) as [->|Hne].
    + rewrite !lookup_insert_eq. intros [= <-]. by exists [], ts.
    + rewrite !lookup_insert_ne by done. apply Hlast.
  - intros u. simpl. destruct (decide (u = t)) as [->|Hne].
    + by rewrite !lookup_insert_eq.
    + rewrite !lookup_insert_ne by done. apply Hsame.
Qed.

(** Seeding only ever adds the baseline of a team that has no entry. *)
Lemma seed_unchanged t ts st :
  is_Some (elo_ratings st !! t) → seed t ts st = st.
Proof. intros [r E]. unfold seed. by rewrite E. Qed.

End Seeding.

(** ** One iteration of the loop *)

Section Step.

Implicit Types (st : state) (team t u ts : str) (m : match_record).

(** What one completed match does to a state that satisfies the
    invariant: the comparison may raise after the seeding, and otherwise
    the four stores of lines 59-62 happen. *)
Lemma process_match_completed ts st m hs as_ :
  inv st →
  home_score m = Some hs →
  away_score m = Some as_ →
  let home := clean_team_name (home_team m) in
  let away := clean_team_name (away_team m) in
  let st1 := seed away ts (seed home ts st) in
  match actual_score_of hs as_ with
  | None => process_match ts st m = Raised TypeError st1
  | Some s =>
      let new := update_elo (current_rating st home) (current_rating st away)
                   s default_k in
      let hist_home := history_before ts st home ++ [(ts, new.1)] in
      let hist_away :=
        (if decide (home = away) then hist_home
         else history_before ts st away) ++ [(ts, new.2)] in
      process_match ts st m =
      Done {| elo_ratings :=
                <[away := new.2]> (<[home := new.1]> (elo_ratings st1));
              elo_history :=
                <[away := hist_away]>
                  (<[home := hist_home]> (elo_history st1)) |}
  end.
Proof.
  intros Hinv Hh Ha home away st1.
  assert (Hinv0 : inv (seed home ts st)) by by apply seed_inv.
  assert (Hrh : elo_ratings st1 !! home = Some (current_rating st home)).
  { unfold st1. destruct (decide (home = away)) as [<-|Hne].
    - by rewrite seed_ratings_self, current_rating_seed.
    - by rewrite seed_ratings_ne, seed_ratings_self. }
  assert (Hra : elo_ratings st1 !! away = Some (current_rating st away)).
  { unfold st1. by rewrite seed_ratings_self, current_rating_seed. }
  assert (Hhh : elo_history st1 !! home = Some (history_before ts st home)).
  { unfold st1. destruct (decide (home = away)) as [<-|Hne].
    - by rewrite seed_history_self, history_before_seed.
    - by rewrite seed_history_ne, seed_history_self. }
  assert (Hha : elo_history st1 !! away = Some (history_before ts st away)).
  { unfold st1. by rewrite seed_history_self, history_before_seed. }
  unfold process_match. rewrite Hh, Ha.
  fold home away. fold st1.
  destruct (actual_score_of hs as_) as [s|]; [|done].
  rewrite Hrh, Hra.
  destruct (update_elo _ _ s default_k) as [na nb] eqn:Eu. simp.
  unfold history_append. rewrite Hhh.
  destruct (decide (home = away)) as [Heq|Hne].
  - rewrite <- Heq. by rewrite lookup_insert_eq.
  - rewrite lookup_insert_ne by done. by rewrite Hha.
Qed.

(** A match with a missing score leaves the state as it is. *)
Lemma process_match_incomplete ts st m :
  home_score m = None ∨ away_score m = None →
  process_match ts st m = Done st.
Proof.
  intros [H|H]; unfold process_match; rewrite H; [done|].
  by destruct (home_score m).
Qed.

Lemma process_match_inv ts st m :
  inv st → inv (outcome_state (process_match ts st m)).
Proof.
  intros Hinv.
  destruct (home_score m) as [hs|] eqn:Hh;
    [|by rewrite process_match_incomplete by auto].
  destruct (away_score m) as [as_|] eqn:Ha;
    [|by rewrite process_match_incomplete by auto].
  pose proof (process_match_completed ts st m hs as_ Hinv Hh Ha) as H.
  simp in H. destruct (actual_score_of hs as_) as [s|].
  - rewrite H. simp.
    set (home := clean_team_name (home_team m)) in *.
    set (away := clean_team_name (away_team m)) in *.
    set (st1 := seed away ts (seed home ts st)) in *.
    assert (Hinv1 : inv st1) by by apply seed_inv, seed_inv.
    destruct Hinv1 as [Hlast Hsame]. split.
    + intros u r. simp.
      destruct (decide (u = away)) as [->|Hna].
      { rewrite !lookup_insert_eq. intros [= <-]. eauto. }
      rewrite !(lookup_insert_ne _ away) by done.
      destruct (decide (u = home)) as [->|Hnh].
      { rewrite !lookup_insert_eq. intros [= <-]. eauto. }
      rewrite !lookup_insert_ne by done. apply Hlast.
    + intros u. simp.
      destruct (decide (u = away)) as [->|Hna].
      { by rewrite !lookup_insert_eq. }
      rewrite !(lookup_insert_ne _ away) by done.
      destruct (decide (u = home)) as [->|Hnh].
      { by rewrite !lookup_insert_eq. }
      rewrite !lookup_insert_ne by done. apply Hsame.
  - rewrite H. simp. by apply seed_inv, seed_inv.
Qed.

Lemma reachable_inv st : reachable st → inv st.
Proof.
  induction 1 as [|st ts m st' _ IH Hstep]; [apply inv_initial|].
  pose proof (process_match_inv ts st m IH) as H.
  by rewrite Hstep in H.
Qed.

Lemma run_inv st evs : inv st → inv (outcome_state (run st evs)).
Proof.
  revert st. induction evs as [|[ts m] evs IH]; intros st Hinv; [done|].
  cbn [run]. pose proof (process_match_inv ts st m Hinv) as H.
  destruct (process_match ts st m); [by apply IH | done].
Qed.

Lemma run_reachable st evs st' :
  reachable st → run st evs = Done st' → reachable st'.
Proof.
  revert st. induction evs as [|[ts m] evs IH]; intros st Hr; simpl.
  - by intros [= <-].
  - destruct (process_match ts st m) as [st1|] eqn:E; [|done].
    apply IH. by eapply reachable_step.
Qed.

End Step.

(** ** The update rule *)

Section UpdateRule.

Implicit Types (st : state) (team t u ts : str) (m : match_record).

Lemma expected_score_equal r : expected_score r r = 0.5.
Proof.
  unfold expected_score.
  replace ((r - r) / 400) with 0 by lra.
  rewrite Rpower_O by lra. lra.
Qed.

Lemma actual_score_of_int h a :
  actual_score_of (PyInt h) (PyInt a) =
  Some (if decide (a < h)%Z then 1 else if decide (h = a) then 0.5 else 0).
Proof.
  unfold actual_score_of. cbn [py_gt py_eq].
  destruct (Z.ltb_spec a h) as [Hlt|Hge].
  - by rewrite decide_True.
  - rewrite decide_False by lia.
    destruct (Z.eqb_spec h a) as [Heq|Hne].
    + by rewrite decide_True.
    + by rewrite decide_False.
Qed.

Lemma actual_score_of_None hs as_ :
  actual_score_of hs as_ = None ↔ py_gt hs as_ = None.
Proof.
  unfold actual_score_of. by destruct (py_gt hs as_) as [[|]|].
Qed.



(** The two formulas of [update_elo] are symmetric: read as expressions
    over the real numbers their results add up to the sum of the two
    ratings given. This is an identity of exact arithmetic only; the code
    evaluates the formulas in binary64, where each operation rounds, and
    there the two sums can differ (for the two ratings
    2040.0000000000002 and a win the results are 2056.0 and
    2024.0000000000002). *)
Lemma update_elo_zero_sum (R_home R_away actual_score k : R) :
  (update_elo R_home R_away actual_score k).1 +
  (update_elo R_home R_away actual_score k).2 = R_home + R_away.
Proof. unfold update_elo. simp. ring. Qed.

End UpdateRule.

(** ** Effects of one match on the two dictionaries *)

Section Effects.

Implicit Types (st : state) (team t u ts : str) (m : match_record).

(** C3. A match that lacks a score is skipped: the iteration returns the
    state it was given (no rating stored, no history entry, no team
    created); hence a data set all of whose matches lack a score yields
    two empty dictionaries. *)
Theorem incomplete_matches_are_skipped :
  (∀ ts st m,
     home_score m = None ∨ away_score m = None →
     process_match ts st m = Done st) ∧
  (∀ data,
     (∀ sd wk m, sd ∈ data → wk ∈ weeks sd → m ∈ wk.2 →
        home_score m = None ∨ away_score m = None) →
     calculate_elo_ratings data =
     Done {| elo_ratings := ∅; elo_history := ∅ |}).
Proof.
  split; [apply process_match_incomplete|].
  intros data Hall. unfold calculate_elo_ratings.
  fold initial_state. generalize initial_state as st.
  induction data as [|sd data IH]; intros st; simpl; [done|].
  assert (Hw : ∀ ws, (∀ wk, wk ∈ ws → wk ∈ weeks sd) →
               process_weeks (season sd) st ws = Done st).
  { induction ws as [|[w ms] ws IHw]; intros Hsub; simpl; [done|].
    assert (Hm : ∀ l, (∀ m, m ∈ l → m ∈ ms) →
                 process_matches (timestamp_of (season sd) w) st l = Done st).
    { induction l as [|m l IHl]; intros Hl; simpl; [done|].
      rewrite process_match_incomplete.
      - apply IHl. intros m' Hm'. apply Hl. by right.
      - apply (Hall sd (w, ms) m).
        + by left.
        + apply Hsub. by left.
        + apply Hl. by left. }
    rewrite Hm by done. apply IHw. intros wk Hwk. apply Hsub. by right. }
  rewrite Hw by done. apply IH.
  intros sd' wk m Hsd. apply Hall. by right.
Qed.

(** C5. After any number of matches of the traversal, and when the
    engine returns, the stored rating of every team in the rating
    dictionary is the rating of the last entry of its history. *)
Theorem rating_equals_last_history_entry data :
  (∀ n, rating_is_last_entry (outcome_state (state_after data n))) ∧
  rating_is_last_entry (outcome_state (calculate_elo_ratings data)).
Proof.
  split.
  - intros n. unfold state_after. apply run_inv, inv_initial.
  - rewrite calculate_elo_ratings_run. apply run_inv, inv_initial.
Qed.

(** C10. A completed match whose two names normalise to the same team T:
    the expected score is 0.5, both updates are computed from the one
    rating R of T, T's history receives first R + 32 * (actual - 0.5) and
    then R + 32 * ((1 - actual) - 0.5), and the stored rating of T is the
    second value. *)
Theorem self_match_updates_one_team_twice ts st m hs as_ actual T :
  reachable st →
  home_score m = Some hs →
  away_score m = Some as_ →
  actual_score_of hs as_ = Some actual →
  clean_team_name (home_team m) = T →
  clean_team_name (away_team m) = T →
  let R := current_rating st T in
  expected_score R R = 0.5 ∧
  ∃ st',
    process_match ts st m = Done st' ∧
    elo_history st' !! T =
      Some (history_before ts st T ++
            [(ts, R + 32 * (actual - 0.5));
             (ts, R + 32 * ((1 - actual) - 0.5))]) ∧
    elo_ratings st' !! T = Some (R + 32 * ((1 - actual) - 0.5)).
Proof.
  intros Hr Hh Ha Hs HT1 HT2 R. split; [apply expected_score_equal|].
  pose proof (process_match_completed ts st m _ _ (reachable_inv _ Hr) Hh Ha)
    as H.
  simp in H. rewrite Hs, HT1, HT2 in H. fold R in H.
  eexists. split; [exact H|]. simp.
  rewrite !lookup_insert_eq, decide_True by done.
  unfold update_elo, default_k. simp. rewrite expected_score_equal.
  rewrite <- app_assoc. simp. split; repeat f_equal; lra.
Qed.

End Effects.

(** ** Frame and growth *)

Section Frame.

Implicit Types (st : state) (team t u ts : str) (m : match_record).

Lemma seed_history_keep t u ts st l :
  inv st → elo_history st !! u = Some l →
  elo_history (seed t ts st) !! u = Some l.
Proof.
  intros Hinv Hl. destruct (decide (u = t)) as [->|Hne].
  - rewrite seed_history_self by done. unfold history_before. by rewrite Hl.
  - by rewrite seed_history_ne.
Qed.

(** A team that is neither side of the match keeps its two entries,
    whatever the outcome of the iteration. *)
Lemma process_match_frame ts st m : inv st → others_unchanged ts st m.
Proof.
  intros Hinv team Hnh Hna.
  destruct (home_score m) as [hs|] eqn:Hh;
    [|by rewrite process_match_incomplete by auto].
  destruct (away_score m) as [as_|] eqn:Ha;
    [|by rewrite process_match_incomplete by auto].
  pose proof (process_match_completed ts st m hs as_ Hinv Hh Ha) as H.
  simp in H. destruct (actual_score_of hs as_) as [s|]; rewrite H; simp.
  - rewrite !lookup_insert_ne by done.
    by rewrite !seed_ratings_ne, !seed_history_ne.
  - by rewrite !seed_ratings_ne, !seed_history_ne.
Qed.

(** A match that does not involve a team leaves its entries alone. *)
Lemma process_match_not_involved ts st m team :
  inv st → ¬ involves team m →
  let st' := outcome_state (process_match ts st m) in
  elo_ratings st' !! team = elo_ratings st !! team ∧
  elo_history st' !! team = elo_history st !! team.
Proof.
  intros Hinv Hni.
  destruct (home_score m) as [hs|] eqn:Hh;
    [|by rewrite process_match_incomplete by auto].
  destruct (away_score m) as [as_|] eqn:Ha;
    [|by rewrite process_match_incomplete by auto].
  apply process_match_frame; [done| |]; intros ->; apply Hni.
  - split; [split; by eexists | by left].
  - split; [split; by eexists | by right].
Qed.

Lemma run_not_involved st evs team :
  inv st → (∀ e, e ∈ evs → ¬ involves team e.2) →
  let st' := outcome_state (run st evs) in
  elo_ratings st' !! team = elo_ratings st !! team ∧
  elo_history st' !! team = elo_history st !! team.
Proof.
  revert st. induction evs as [|[ts m] evs IH]; intros st Hinv Hall; [done|].
  simp.
  assert (Hm : ¬ involves team m) by (apply (Hall (ts, m)); by left).
  pose proof (process_match_not_involved ts st m team Hinv Hm) as [H1 H2].
  pose proof (process_match_inv ts st m Hinv) as Hinv'.
  destruct (process_match ts st m) as [st1|e st1]; simp in *; [|done].
  destruct (IH st1 Hinv') as [H3 H4].
  { intros e He. apply Hall. by right. }
  simp in *. by rewrite H3, H4.
Qed.

(** Histories only grow, at their end. *)
Lemma process_match_history_grows ts st m team l :
  inv st → elo_history st !! team = Some l →
  ∃ l', elo_history (outcome_state (process_match ts st m)) !! team
        = Some (l ++ l').
Proof.
  intros Hinv Hl.
  destruct (home_score m) as [hs|] eqn:Hh;
    [|rewrite process_match_incomplete by auto; exists []; by rewrite app_nil_r].
  destruct (away_score m) as [as_|] eqn:Ha;
    [|rewrite process_match_incomplete by auto; exists []; by rewrite app_nil_r].
  pose proof (process_match_completed ts st m hs as_ Hinv Hh Ha) as H.
  simp in H.
  set (home := clean_team_name (home_team m)) in *.
  set (away := clean_team_name (away_team m)) in *.
  assert (Hb : history_before ts st team = l).
  { unfold history_before. by rewrite Hl. }
  destruct (actual_score_of hs as_) as [s|]; rewrite H; simp.
  - destruct (decide (team = away)) as [->|Hna].
    + rewrite lookup_insert_eq. destruct (decide (home = away)) as [->|Hne].
      * rewrite Hb, <- app_assoc. eauto.
      * rewrite Hb. eauto.
    + rewrite lookup_insert_ne by done.
      destruct (decide (team = home)) as [->|Hnh].
      * rewrite lookup_insert_eq, Hb. eauto.
      * rewrite lookup_insert_ne by done.
        rewrite !seed_history_ne by done. exists []. by rewrite app_nil_r.
  - exists []. rewrite app_nil_r.
    apply seed_history_keep; [by apply seed_inv|].
    by apply seed_history_keep.
Qed.

Lemma run_history_grows st evs team l :
  inv st → elo_history st !! team = Some l →
  ∃ l', elo_history (outcome_state (run st evs)) !! team = Some (l ++ l').
Proof.
  revert st l. induction evs as [|[ts m] evs IH]; intros st l Hinv Hl.
  - exists []. by rewrite app_nil_r.
  - simp.
    destruct (process_match_history_grows ts st m team l Hinv Hl) as [l1 H1].
    pose proof (process_match_inv ts st m Hinv) as Hinv'.
    destruct (process_match ts st m) as [st1|e st1]; simp in *; [|eauto].
    destruct (IH st1 _ Hinv' H1) as [l2 H2].
    exists (l1 ++ l2). by rewrite app_assoc.
Qed.

(** The first match of a team: both entries are created by the seeding,
    and the update is appended after the baseline. *)
Lemma process_match_first ts st m team st' :
  inv st → involves team m →
  elo_ratings st !! team = None →
  process_match ts st m = Done st' →
  let st1 := seed (clean_team_name (away_team m)) ts
               (seed (clean_team_name (home_team m)) ts st) in
  elo_ratings st1 !! team = Some 1500 ∧
  elo_history st1 !! team = Some [(ts, 1500)] ∧
  ∃ upd, upd ≠ [] ∧ elo_history st' !! team = Some ((ts, 1500) :: upd).
Proof.
  intros Hinv [[[hs Hh] [as_ Ha]] Hteam] Hnone Hstep.
  set (home := clean_team_name (home_team m)) in *.
  set (away := clean_team_name (away_team m)) in *.
  assert (Hcr : current_rating st team = 1500).
  { unfold current_rating. by rewrite Hnone. }
  assert (Hhb : history_before ts st team = [(ts, 1500)]).
  { unfold history_before. destruct Hinv as [_ Hsame].
    apply Hsame in Hnone. by rewrite Hnone. }
  assert (Hinv0 : inv (seed home ts st)) by by apply seed_inv.
  simp. split_and!.
  - destruct (decide (team = away)) as [->|Hna].
    + by rewrite seed_ratings_self, current_rating_seed, Hcr.
    + destruct Hteam as [<-|<-]; [|done].
      by rewrite seed_ratings_ne, seed_ratings_self, Hcr.
  - destruct (decide (team = away)) as [->|Hna].
    + by rewrite seed_history_self, history_before_seed, Hhb.
    + destruct Hteam as [<-|<-]; [|done].
      by rewrite seed_history_ne, seed_history_self, Hhb.
  - pose proof (process_match_completed ts st m hs as_ Hinv Hh Ha) as H.
    simp in H. fold home away in H.
    destruct (actual_score_of hs as_) as [s|]; rewrite H in Hstep; [|done].
    apply (f_equal outcome_state) in Hstep.
  cbn [outcome_state] in Hstep. subst st'. simp.
    destruct (decide (team = away)) as [->|Hna].
    + rewrite lookup_insert_eq. destruct (decide (home = away)) as [->|Hne].
      * rewrite Hhb. simp. eexists. split; [|done]. done.
      * rewrite Hhb. simp. eexists. split; [|done]. done.
    + destruct Hteam as [<-|<-]; [|done].
      rewrite lookup_insert_ne, lookup_insert_eq by done.
      rewrite Hhb. simp. eexists. split; [|done]. done.
Qed.

End Frame.

(** ** The engine on the sample inputs *)

Section Samples.

Lemma clean_foo : clean_team_name (py "Foo") = py "Foo".
Proof. vm_compute. reflexivity. Qed.

Lemma clean_bar : clean_team_name (py "Bar") = py "Bar".
Proof. vm_compute. reflexivity. Qed.

Lemma clean_sponsored_foo :
  clean_team_name (py "GA" ++ [220%N] ++ py " Foo TSK") = py "Foo".
Proof. vm_compute. reflexivity. Qed.


Lemma events_single_match m :
  events (single_match_data m) = [(ts_2024_1, m)].
Proof. reflexivity. Qed.

(** With integer scores the comparison cannot raise. *)
Lemma process_match_int_done ts st m h a :
  inv st →
  home_score m = Some (PyInt h) → away_score m = Some (PyInt a) →
  ∃ st', process_match ts st m = Done st'.
Proof.
  intros Hinv Hh Ha.
  pose proof (process_match_completed ts st m _ _ Hinv Hh Ha) as H.
  simp in H. rewrite actual_score_of_int in H. eauto.
Qed.

Lemma calculate_single_match m h a :
  home_score m = Some (PyInt h) → away_score m = Some (PyInt a) →
  ∃ st, process_match ts_2024_1 initial_state m = Done st ∧
        calculate_elo_ratings (single_match_data m) = Done st.
Proof.
  intros Hh Ha.
  destruct (process_match_int_done ts_2024_1 initial_state m h a
              inv_initial Hh Ha) as [st Hst].
  exists st. split; [done|].
  rewrite calculate_elo_ratings_run, events_single_match.
  cbn [run]. by rewrite Hst.
Qed.

End Samples.

(** ** Creation of a team, appends and validation *)

Section Histories.

Implicit Types (st : state) (team t u ts : str) (m : match_record).

(** C2. The entries of a team are created by the first completed match of
    the traversal one of whose normalised names is that team: before it the
    team is in neither dictionary; the seeding of that match gives it the
    rating 1500 and the history [(timestamp, 1500)]; the update of that
    match is appended after this baseline; and the history the engine
    returns for the team still starts with (timestamp, 1500). *)
Theorem history_starts_with_baseline data st pre ts m post team :
  calculate_elo_ratings data = Done st →
  events data = pre ++ (ts, m) :: post →
  involves team m →
  (∀ e, e ∈ pre → ¬ involves team e.2) →
  ∃ st0 st2 upd rest,
    run initial_state pre = Done st0 ∧
    elo_ratings st0 !! team = None ∧
    elo_history st0 !! team = None ∧
    (let st1 := seed (clean_team_name (away_team m)) ts
                  (seed (clean_team_name (home_team m)) ts st0) in
     elo_ratings st1 !! team = Some 1500 ∧
     elo_history st1 !! team = Some [(ts, 1500)]) ∧
    process_match ts st0 m = Done st2 ∧
    upd ≠ [] ∧
    elo_history st2 !! team = Some ((ts, 1500) :: upd) ∧
    elo_history st !! team = Some ((ts, 1500) :: upd ++ rest).
Proof.
  intros Hcalc Hev Hinvolved Hpre.
  rewrite calculate_elo_ratings_run, Hev, run_app in Hcalc.
  destruct (run initial_state pre) as [st0|] eqn:Hrun0; [|done].
  cbn [run] in Hcalc.
  destruct (process_match ts st0 m) as [st2|] eqn:Hstep; [|done].
  pose proof (run_inv initial_state pre inv_initial) as Hinv0.
  rewrite Hrun0 in Hinv0. simp in Hinv0.
  destruct (run_not_involved initial_state pre team inv_initial Hpre)
    as [Hr0 Hh0].
  rewrite Hrun0 in Hr0, Hh0. unfold initial_state in Hr0, Hh0.
  simp in Hr0. simp in Hh0.
  rewrite lookup_empty in Hr0. rewrite lookup_empty in Hh0.
  destruct (process_match_first ts st0 m team st2 Hinv0 Hinvolved Hr0 Hstep)
    as (Hs1 & Hs2 & upd & Hupd & Hh2).
  pose proof (process_match_inv ts st0 m Hinv0) as Hinv2.
  rewrite Hstep in Hinv2. simp in Hinv2.
  destruct (run_history_grows st2 post team _ Hinv2 Hh2) as [rest Hrest].
  rewrite Hcalc in Hrest. simp in Hrest.
  exists st0, st2, upd, rest. split_and!; done.
Qed.

(** A team that no completed match involves is in neither dictionary. *)
Lemma never_involved_absent data team :
  (∀ e, e ∈ events data → ¬ involves team e.2) →
  let st := outcome_state (calculate_elo_ratings data) in
  elo_ratings st !! team = None ∧ elo_history st !! team = None.
Proof.
  intros Hall. rewrite calculate_elo_ratings_run.
  destruct (run_not_involved initial_state (events data) team inv_initial Hall)
    as [H1 H2].
  unfold initial_state in H1, H2 at 2.
  simp in H1. simp in H2.
  rewrite lookup_empty in H1. rewrite lookup_empty in H2. done.
Qed.





End Histories.

(** ** [str.strip] *)

Section Strip.

Local Open Scope nat_scope.
Implicit Types (s t old : str) (c : N).

Lemma lstrip_split s :
  ∃ l, s = l ++ lstrip s ∧ Forall (λ c, isspace c = true) l.
Proof.
  induction s as [|c s (l & Hs & Hl)]; [by exists []|].
  cbn [lstrip]. destruct (isspace c) eqn:E.
  - exists (c :: l). split; [by rewrite <- app_comm_cons, <- Hs|].
    by constructor.
  - by exists [].
Qed.

Lemma lstrip_head s c : head (lstrip s) = Some c → isspace c = false.
Proof.
  induction s as [|d s IH]; [done|].
  cbn [lstrip]. destruct (isspace d) eqn:E; [done|].
  by intros [= <-].
Qed.

Lemma lstrip_fixed s :
  (∀ c, head s = Some c → isspace c = false) → lstrip s = s.
Proof.
  destruct s as [|c s]; [done|]. intros H. cbn [lstrip].
  by rewrite (H c).
Qed.

Lemma rstrip_split s :
  ∃ r, s = rstrip s ++ r ∧ Forall (λ c, isspace c = true) r.
Proof.
  destruct (lstrip_split (reverse s)) as (l & Hs & Hl).
  exists (reverse l). split.
  - unfold rstrip. rewrite <- reverse_app, <- Hs. by rewrite reverse_involutive.
  - rewrite Forall_forall in *. intros c Hc. apply Hl.
    by apply elem_of_reverse.
Qed.

Lemma rstrip_last s c : last (rstrip s) = Some c → isspace c = false.
Proof.
  unfold rstrip. rewrite last_reverse. apply lstrip_head.
Qed.

(** Stripping on the right does not uncover whitespace on the left. *)
Lemma rstrip_head s c :
  (∀ c, head s = Some c → isspace c = false) →
  head (rstrip s) = Some c → isspace c = false.
Proof.
  intros Hs. destruct (rstrip_split s) as (r & Heq & Hr).
  destruct (rstrip s) as [|d u]; [done|].
  intros [= <-]. apply Hs. by rewrite Heq.
Qed.

Lemma strip_trimmed s : trimmed s (strip s).
Proof.
  destruct (lstrip_split s) as (l & Hl & Hlsp).
  destruct (rstrip_split (lstrip s)) as (r & Hr & Hrsp).
  exists l, r. unfold strip. split_and!; try done.
  - by rewrite <- Hr.
  - intros c. apply rstrip_head. apply lstrip_head.
  - apply rstrip_last.
Qed.

(** A string without whitespace at either end is left alone. *)
Lemma strip_fixed s :
  (∀ c, head s = Some c → isspace c = false) →
  (∀ c, last s = Some c → isspace c = false) →
  strip s = s.
Proof.
  intros Hh Hl. unfold strip. rewrite lstrip_fixed by done.
  unfold rstrip. rewrite lstrip_fixed.
  - apply reverse_involutive.
  - intros c. rewrite head_reverse. apply Hl.
Qed.

Lemma strip_idempotent s : strip (strip s) = strip s.
Proof.
  destruct (strip_trimmed s) as (l & r & _ & _ & _ & Hh & Hl).
  by apply strip_fixed.
Qed.

(** What [strip] returns is determined by the specification of trimming. *)
Lemma lstrip_whitespace l u :
  Forall (λ c, isspace c = true) l → lstrip (l ++ u) = lstrip u.
Proof.
  induction 1 as [|c l Hc _ IH]; [done|].
  rewrite <- app_comm_cons. cbn [lstrip]. by rewrite Hc.
Qed.

Lemma trimmed_unique s t : trimmed s t → t = strip s.
Proof.
  intros (l & r & -> & Hl & Hr & Hh & Hla).
  unfold strip. rewrite lstrip_whitespace by done.
  destruct t as [|c t].
  - cbn [app]. rewrite <- (app_nil_r r), lstrip_whitespace by done. done.
  - assert (H2 : lstrip ((c :: t) ++ r) = (c :: t) ++ r).
    { cbn [app lstrip]. by rewrite (Hh c). }
    rewrite H2. unfold rstrip. rewrite reverse_app.
    rewrite lstrip_whitespace.
    + rewrite lstrip_fixed; [by rewrite reverse_involutive|].
      intros d. rewrite head_reverse. apply Hla.
    + rewrite Forall_forall in *. intros d Hd. apply Hr.
      by apply elem_of_reverse.
Qed.

End Strip.

(** ** [str.replace] with an empty replacement *)

Section Replace.

Local Open Scope nat_scope.
Implicit Types (s t old : str) (c : N).

Lemma startswith_spec t old :
  startswith t old = true ↔ take (length old) t = old.
Proof.
  revert t. induction old as [|c old IH]; intros t; [by destruct t|].
  destruct t as [|d t]; cbn [startswith length take]; [by split|].
  rewrite andb_true_iff, N.eqb_eq, IH. split.
  - by intros [-> ->].
  - intros [= -> Heq]. by rewrite Heq.
Qed.

Lemma occurs_at_drop old s k :
  occurs_at old s k ↔ startswith (drop k s) old = true.
Proof. unfold occurs_at. by rewrite startswith_spec. Qed.

Lemma covered_iff old s i :
  covered old s i ↔
  ∃ j, j ≤ i ∧ i < j + length old ∧ occurs_at old s j.
Proof.
  unfold covered. rewrite Exists_exists. split.
  - intros (j & Hj & H1 & H2). apply elem_of_seq in Hj.
    exists j. split_and!; [lia|done..].
  - intros (j & Hj & H1 & H2). exists j. split; [|done].
    apply elem_of_seq. lia.
Qed.

Lemma border_freeb_correct old : border_freeb old = true → border_free old.
Proof.
  unfold border_freeb, border_free. rewrite forallb_forall.
  intros H d Hd Heq.
  specialize (H d). rewrite negb_true_iff, bool_decide_eq_false in H.
  apply H; [|done]. apply in_seq. lia.
Qed.

(** Two occurrences of a border-free string do not overlap. *)
Lemma occurrences_disjoint old s j j' :
  border_free old →
  occurs_at old s j → occurs_at old s j' →
  j < j' → j' < j + length old → False.
Proof.
  unfold occurs_at. intros Hbf Hj Hj' H1 H2.
  apply (Hbf (j' - j)); [lia|].
  set (n := length old) in *.
  rewrite <- Hj at 2. rewrite skipn_firstn_comm, drop_drop.
  replace (j + (j' - j)) with j' by lia.
  rewrite <- Hj' at 1. rewrite take_take. f_equal. lia.
Qed.

Lemma drop_cons_next s k c t : drop k s = c :: t → drop (S k) s = t.
Proof.
  intros H. replace (S k) with (k + 1) by lia.
  by rewrite <- drop_drop, H.
Qed.

(** The scan of [replace] keeps exactly the characters that lie in no
    occurrence, provided occurrences cannot overlap. While [skip] is
    positive the scan is inside an occurrence; when it is zero no
    occurrence that started earlier reaches the current position. *)
Lemma replace_from_keep_uncovered old s :
  0 < length old →
  border_free old →
  ∀ t k skip,
    drop k s = t →
    match skip with
    | O => ∀ j, j < k → k < j + length old → ¬ occurs_at old s j
    | S _ => ∃ j, j ≤ k ∧ occurs_at old s j ∧ j + length old = k + skip
    end →
    replace_from old [] skip t = keep_uncovered old s k t.
Proof.
  intros Hlen Hbf.
  induction t as [|c t IH]; intros k skip Hdrop Hcut; [by destruct skip|].
  pose proof (drop_cons_next _ _ _ _ Hdrop) as Hnext.
  cbn [replace_from keep_uncovered].
  destruct skip as [|n].
  - destruct (startswith (c :: t) old) eqn:Hsw.
    + assert (Hocc : occurs_at old s k).
      { apply occurs_at_drop. by rewrite Hdrop. }
      rewrite decide_True.
      * cbn [app]. apply IH; [done|].
        destruct (length old - 1) as [|m] eqn:Em.
        -- intros j Hj1 Hj2. lia.
        -- exists k. split_and!; [lia|done|lia].
      * apply covered_iff. exists k. split_and!; [lia..|done].
    + assert (Hnocc : ¬ occurs_at old s k).
      { rewrite occurs_at_drop, Hdrop, Hsw. done. }
      rewrite decide_False.
      * cbn [app]. f_equal. apply IH; [done|].
        intros j Hj1 Hj2 Hocc.
        destruct (decide (j = k)) as [->|Hne]; [done|].
        apply (Hcut j); [lia..|done].
      * rewrite covered_iff. intros (j & Hj1 & Hj2 & Hocc).
        destruct (decide (j = k)) as [->|Hne]; [done|].
        apply (Hcut j); [lia..|done].
  - destruct Hcut as (j & Hjk & Hocc & Hj).
    rewrite decide_True.
    + cbn [app]. apply IH; [done|].
      destruct n as [|n'].
      * intros j' Hj1 Hj2 Hocc'.
        apply (occurrences_disjoint old s j j'); try done; lia.
      * exists j. split_and!; [lia|done|lia].
    + apply covered_iff. exists j. split_and!; [lia..|done].
Qed.

End Replace.

(** ** The normaliser *)

Section Normaliser.

Local Open Scope nat_scope.
Implicit Types (s t x old : str) (c : N).

Lemma replace_deletes_occurrences old s :
  0 < length old → border_free old →
  replace s old [] = delete_occurrences old s.
Proof.
  intros Hlen Hbf. unfold replace, delete_occurrences.
  destruct old as [|c old]; [cbn [length] in Hlen; lia|].
  apply replace_from_keep_uncovered; [done..|].
  intros j Hj. lia.
Qed.

Lemma listed_nonempty_border_free old :
  old ∈ prefixes ++ suffixes → 0 < length old ∧ border_free old.
Proof.
  assert (H : forallb (λ old, (0 <? length old) && border_freeb old)
                (prefixes ++ suffixes) = true) by (vm_compute; reflexivity).
  rewrite forallb_forall in H. intros Hin.
  apply list_elem_of_In, H, andb_true_iff in Hin as [H1 H2].
  split; [by apply Nat.ltb_lt | by apply border_freeb_correct].
Qed.

Lemma contains_none_listedb_correct x :
  contains_none_listedb x = true → contains_none_listed x.
Proof.
  unfold contains_none_listedb, contains_none_listed.
  rewrite forallb_forall. intros H old Hin.
  apply list_elem_of_In, H in Hin. by apply negb_true_iff.
Qed.

Lemma contains_spec s old :
  contains s old = true ↔ ∃ j, occurs_at old s j.
Proof.
  setoid_rewrite occurs_at_drop. induction s as [|c s IH].
  - cbn [contains]. rewrite orb_false_r. split.
    + intros H. by exists 0.
    + intros [j H]. by rewrite drop_nil in H.
  - cbn [contains]. rewrite orb_true_iff, IH. split.
    + intros [H|[j H]]; [by exists 0 | by exists (S j)].
    + intros [[|j] H]; [by left | right; by exists j].
Qed.

Lemma replace_from_absent old s :
  contains s old = false → replace_from old [] 0 s = s.
Proof.
  induction s as [|c s IH]; [done|].
  cbn [contains replace_from]. intros [H1 H2]%orb_false_iff.
  by rewrite H1, IH.
Qed.

Lemma replace_absent s old : contains s old = false → replace s old [] = s.
Proof.
  intros H. unfold replace. destruct old as [|c old].
  - by destruct s.
  - by apply replace_from_absent.
Qed.

Lemma clean_team_name_unfold x :
  clean_team_name x =
  strip (fold_left (λ s old, replace s old []) (prefixes ++ suffixes) x).
Proof. unfold clean_team_name. by rewrite fold_left_app. Qed.

Lemma fold_replace_deletes l x :
  (∀ old, old ∈ l → 0 < length old ∧ border_free old) →
  fold_left (λ s old, replace s old []) l x =
  fold_left (λ s old, delete_occurrences old s) l x.
Proof.
  revert x. induction l as [|old l IH]; intros x Hl; [done|].
  cbn [fold_left].
  destruct (Hl old) as [H1 H2]; [by left|].
  rewrite replace_deletes_occurrences by done.
  apply IH. intros old' Hin. apply Hl. by right.
Qed.

Lemma fold_replace_absent l x :
  (∀ old, old ∈ l → contains x old = false) →
  fold_left (λ s old, replace s old []) l x = x.
Proof.
  induction l as [|old l IH]; intros Hl; [done|].
  cbn [fold_left]. rewrite replace_absent by (apply Hl; by left).
  apply IH. intros old' Hin. apply Hl. by right.
Qed.

Lemma clean_team_name_absent x :
  contains_none_listed x → clean_team_name x = strip x.
Proof.
  intros H. rewrite clean_team_name_unfold. by rewrite fold_replace_absent.
Qed.

(** C6. [clean_team_name] is the function the specification describes:
    going through the listed prefixes and then the listed suffixes in
    order, every occurrence of the substring (anywhere in the name, code
    point for code point) is deleted, and the result is trimmed of leading
    and trailing whitespace; a name that contains none of the listed
    substrings is only trimmed. *)
Theorem clean_team_name_spec x :
  trimmed
    (fold_left (λ s old, delete_occurrences old s) (prefixes ++ suffixes) x)
    (clean_team_name x) ∧
  (contains_none_listed x → trimmed x (clean_team_name x)).
Proof.
  split.
  - rewrite clean_team_name_unfold, fold_replace_deletes.
    + apply strip_trimmed.
    + apply listed_nonempty_border_free.
  - intros H. rewrite clean_team_name_absent by done. apply strip_trimmed.
Qed.

(** C8, as amended. Normalising twice is the same as normalising once
    whenever the normalised name contains none of the listed substrings. *)
Theorem clean_team_name_idempotent_on_clean_names x :
  contains_none_listed (clean_team_name x) →
  clean_team_name (clean_team_name x) = clean_team_name x.
Proof.
  intros H. rewrite (clean_team_name_absent _ H).
  rewrite clean_team_name_unfold. apply strip_idempotent.
Qed.

(** C8 fails when a deletion splices a new occurrence together: "X S SKK"
    normalises to "X SK", which normalises to "X". *)
Lemma clean_team_name_not_idempotent :
  clean_team_name (py "X S SKK") = py "X SK" ∧
  clean_team_name (clean_team_name (py "X S SKK"))
  ≠ clean_team_name (py "X S SKK").
Proof. split; [vm_compute; reflexivity | vm_compute; discriminate]. Qed.

(** Matching is exact: a name in another letter case is left alone. *)
Lemma clean_team_name_case_sensitive :
  clean_team_name (py "miracle Foo tsk") = py "miracle Foo tsk".
Proof. vm_compute. reflexivity. Qed.

End Normaliser.

(** ** The theorems on the sample inputs *)

Section Witnesses.

Lemma current_rating_initial team : current_rating initial_state team = 1500.
Proof. unfold current_rating, initial_state. simp. by rewrite lookup_empty. Qed.

Lemma history_before_initial ts team :
  history_before ts initial_state team = [(ts, 1500)].
Proof. unfold history_before, initial_state. simp. by rewrite lookup_empty. Qed.


Lemma history_starts_with_baseline_witness :
  ∃ st upd rest,
    calculate_elo_ratings (single_match_data (foo_vs_bar 2 1)) = Done st ∧
    upd ≠ [] ∧
    elo_history st !! py "Foo" = Some ((ts_2024_1, 1500) :: upd ++ rest).
Proof.
  destruct (calculate_single_match (foo_vs_bar 2 1) 2 1 eq_refl eq_refl)
    as (st & _ & Hcalc).
  destruct (history_starts_with_baseline
              (single_match_data (foo_vs_bar 2 1)) st []
              ts_2024_1 (foo_vs_bar 2 1) [] (py "Foo") Hcalc eq_refl)
    as (st0 & st2 & upd & rest & _ & _ & _ & _ & _ & Hupd & _ & Hh).
  - split; [split; by eexists|]. left. apply clean_foo.
  - intros e He. by apply elem_of_nil in He.
  - by exists st, upd, rest.
Defined.

Lemma incomplete_matches_are_skipped_witness :
  process_match ts_2024_1 initial_state foo_vs_bar_unplayed
  = Done initial_state ∧
  calculate_elo_ratings (single_match_data foo_vs_bar_unplayed)
  = Done {| elo_ratings := ∅; elo_history := ∅ |}.
Proof.
  split.
  - apply (proj1 incomplete_matches_are_skipped). by left.
  - apply (proj2 incomplete_matches_are_skipped).
    intros sd wk m Hsd Hwk Hm.
    apply list_elem_of_singleton in Hsd as ->.
    apply list_elem_of_singleton in Hwk as ->.
    apply list_elem_of_singleton in Hm as ->. by left.
Defined.

Lemma clean_team_name_spec_witness :
  trimmed (py " Foo ") (clean_team_name (py " Foo ")).
Proof.
  apply (proj2 (clean_team_name_spec (py " Foo "))).
  apply contains_none_listedb_correct. vm_compute. reflexivity.
Defined.


Lemma clean_team_name_idempotent_witness :
  clean_team_name (clean_team_name (py "GA" ++ [220%N] ++ py " Foo TSK"))
  = clean_team_name (py "GA" ++ [220%N] ++ py " Foo TSK").
Proof.
  apply clean_team_name_idempotent_on_clean_names.
  apply contains_none_listedb_correct. vm_compute. reflexivity.
Defined.


(** Foo against its own sponsored name, 2-1, as the first match: the
    history of Foo is 1500, 1516, 1484 and its rating 1484. *)
Lemma self_match_witness :
  ∃ st',
    process_match ts_2024_1 initial_state foo_vs_sponsored_foo = Done st' ∧
    elo_history st' !! py "Foo" =
      Some [(ts_2024_1, 1500); (ts_2024_1, 1516); (ts_2024_1, 1484)] ∧
    elo_ratings st' !! py "Foo" = Some 1484.
Proof.
  destruct (self_match_updates_one_team_twice ts_2024_1 initial_state
              foo_vs_sponsored_foo (PyInt 2) (PyInt 1) 1 (py "Foo")
              reachable_initial eq_refl eq_refl eq_refl
              clean_foo clean_sponsored_foo)
    as (_ & st' & Hstep & Hh & Hr).
  rewrite current_rating_initial in Hr, Hh.
  rewrite history_before_initial in Hh.
  exists st'. split; [done|]. rewrite Hh, Hr.
  split; repeat f_equal; lra.
Defined.

End Witnesses.

(** ** More on what the engine returns *)

Section Outcome.

Implicit Types (st : state) (team t u ts : str) (m : match_record).

Lemma events_app data1 data2 :
  events (data1 ++ data2) = events data1 ++ events data2.
Proof. unfold events. apply flat_map_app. Qed.

Lemma comparable_scores_cons e evs :
  comparable_scores (e :: evs) ↔
  (∀ hs as_, home_score e.2 = Some hs → away_score e.2 = Some as_ →
     py_gt hs as_ ≠ None) ∧
  comparable_scores evs.
Proof.
  unfold comparable_scores. split.
  - intros H. split.
    + intros hs as_. destruct e as [ts m]. apply (H ts m). by left.
    + intros ts m hs as_ Hin. apply (H ts m). by right.
  - intros [H1 H2] ts m hs as_ Hin.
    apply elem_of_cons in Hin as [<-|Hin]; [apply H1 | by eapply H2].
Qed.

(** From a state that satisfies the invariant the fold either returns or
    stops on a [TypeError], according to the scores. *)
Lemma run_outcome st evs :
  inv st →
  (comparable_scores evs ∧ ∃ st', run st evs = Done st') ∨
  (¬ comparable_scores evs ∧ ∃ st', run st evs = Raised TypeError st').
Proof.
  revert st. induction evs as [|[ts m] evs IH]; intros st Hinv.
  - left. split; [|by eexists]. intros ts m hs as_ Hin.
    by apply elem_of_nil in Hin.
  - cbn [run]. rewrite comparable_scores_cons. cbn [snd].
    pose proof (process_match_inv ts st m Hinv) as Hinv'.
    destruct (home_score m) as [hs|] eqn:Hh.
    2:{ rewrite process_match_incomplete in * by auto.
        destruct (IH st Hinv') as [[Hc Hd]|[Hc Hd]]; [left|right].
        - split; [split|]; done.
        - split; [|done]. by intros [_ ?]. }
    destruct (away_score m) as [as_|] eqn:Ha.
    2:{ rewrite process_match_incomplete in * by auto.
        destruct (IH st Hinv') as [[Hc Hd]|[Hc Hd]]; [left|right].
        - split; [split|]; done.
        - split; [|done]. by intros [_ ?]. }
    pose proof (process_match_completed ts st m hs as_ Hinv Hh Ha) as H.
    simp in H. destruct (actual_score_of hs as_) as [s|] eqn:Hs.
    + rewrite H in *. simp in Hinv'.
      assert (Hgt : py_gt hs as_ ≠ None).
      { intros Hn. apply actual_score_of_None in Hn. congruence. }
      destruct (IH _ Hinv') as [[Hc Hd]|[Hc Hd]]; [left|right].
      * split; [split|]; [|done..]. by intros ?? [= <-] [= <-].
      * split; [|done]. by intros [_ ?].
    + rewrite H. right. split; [|by eexists].
      intros [Hc _]. apply (Hc hs as_); [done..|].
      by apply actual_score_of_None.
Qed.

(** X6. In every state the loop can be in between two matches, once the
    seeding of lines 47 to 52 has run both normalised names are keys of
    both dictionaries, although the seeding tests and the first lookups
    concern [elo_ratings] only: the subscript accesses to [elo_ratings]
    and [elo_history] of lines 56 to 62 find their keys. *)
Theorem seeded_teams_are_keys ts st m :
  reachable st →
  let home := clean_team_name (home_team m) in
  let away := clean_team_name (away_team m) in
  let st1 := seed away ts (seed home ts st) in
  is_Some (elo_ratings st1 !! home) ∧ is_Some (elo_ratings st1 !! away) ∧
  is_Some (elo_history st1 !! home) ∧ is_Some (elo_history st1 !! away).
Proof.
  intros Hr home away st1. pose proof (reachable_inv _ Hr) as Hinv.
  assert (Hinv1 : inv st1) by by apply seed_inv, seed_inv.
  assert (Hh : is_Some (elo_ratings st1 !! home)).
  { unfold st1. destruct (decide (home = away)) as [<-|Hne].
    - rewrite seed_ratings_self. by eexists.
    - rewrite seed_ratings_ne, seed_ratings_self by done. by eexists. }
  assert (Ha : is_Some (elo_ratings st1 !! away)).
  { unfold st1. rewrite seed_ratings_self. by eexists. }
  destruct Hinv1 as [_ Hsame]. split_and!; [done..| |].
  - destruct (elo_history st1 !! home) eqn:E; [by eexists|].
    apply Hsame in E. rewrite E in Hh. by destruct Hh.
  - destruct (elo_history st1 !! away) eqn:E; [by eexists|].
    apply Hsame in E. rewrite E in Ha. by destruct Ha.
Qed.

Lemma process_match_teams ts st m st' team :
  inv st → process_match ts st m = Done st' →
  is_Some (elo_ratings st' !! team) ↔
  is_Some (elo_ratings st !! team) ∨ involves team m.
Proof.
  intros Hinv Hstep.
  destruct (home_score m) as [hs|] eqn:Hh.
  2:{ rewrite process_match_incomplete in Hstep by auto.
      injection Hstep as <-. split; [by left|].
      intros [?|[[[? Hc] _] _]]; [done|]. by rewrite Hh in Hc. }
  destruct (away_score m) as [as_|] eqn:Ha.
  2:{ rewrite process_match_incomplete in Hstep by auto.
      injection Hstep as <-. split; [by left|].
      intros [?|[[_ [? Hc]] _]]; [done|]. by rewrite Ha in Hc. }
  pose proof (process_match_completed ts st m hs as_ Hinv Hh Ha) as H.
  simp in H. destruct (actual_score_of hs as_) as [s|]; [|congruence].
  rewrite H in Hstep. apply (f_equal outcome_state) in Hstep.
  cbn [outcome_state] in Hstep. subst st'. simp.
  assert (Hcomp : completed m) by (split; by eexists).
  destruct (decide (team = clean_team_name (away_team m))) as [->|Hna].
  { rewrite lookup_insert_eq. split; [|by eexists].
    intros _. right. split; [done|by right]. }
  rewrite lookup_insert_ne by done.
  destruct (decide (team = clean_team_name (home_team m))) as [->|Hnh].
  { rewrite lookup_insert_eq. split; [|by eexists].
    intros _. right. split; [done|by left]. }
  rewrite lookup_insert_ne by done. rewrite !seed_ratings_ne by done.
  split; [by left|]. intros [?|[_ [?|?]]]; [done|congruence..].
Qed.

Lemma run_teams st evs st' team :
  inv st → run st evs = Done st' →
  is_Some (elo_ratings st' !! team) ↔
  is_Some (elo_ratings st !! team) ∨ ∃ ts m, (ts, m) ∈ evs ∧ involves team m.
Proof.
  revert st. induction evs as [|[ts m] evs IH]; intros st Hinv Hrun.
  - injection Hrun as <-. split; [by left|].
    intros [?|(ts & m & Hin & _)]; [done|]. by apply elem_of_nil in Hin.
  - cbn [run] in Hrun.
    pose proof (process_match_inv ts st m Hinv) as Hinv'.
    destruct (process_match ts st m) as [st1|] eqn:Hstep; [|done].
    simp in Hinv'. rewrite (IH st1 Hinv' Hrun).
    rewrite (process_match_teams ts st m st1 team Hinv Hstep). split.
    + intros [[?|?]|(ts' & m' & Hin & Hinv'')]; [by left| |].
      * right. exists ts, m. split; [by left|done].
      * right. exists ts', m'. split; [by right|done].
    + intros [?|(ts' & m' & Hin & Hinv'')]; [by left; left|].
      apply elem_of_cons in Hin as [[= -> ->]|Hin].
      * left. by right.
      * right. by exists ts', m'.
Qed.

(** X7. The teams of the two dictionaries the engine returns are the same,
    and they are exactly the normalised names that are the home or the
    away side of some completed match of the data set. *)
Theorem teams_are_those_of_completed_matches data st team :
  calculate_elo_ratings data = Done st →
  (is_Some (elo_ratings st !! team) ↔
   ∃ ts m, (ts, m) ∈ events data ∧ involves team m) ∧
  (is_Some (elo_history st !! team) ↔ is_Some (elo_ratings st !! team)).
Proof.
  intros Hcalc. rewrite calculate_elo_ratings_run in Hcalc. split.
  - rewrite (run_teams _ _ _ team inv_initial Hcalc).
    unfold initial_state. simp. rewrite lookup_empty. split.
    + intros [[? ?]|?]; done.
    + by right.
  - pose proof (run_inv initial_state (events data) inv_initial) as [_ Hsame].
    rewrite Hcalc in Hsame. simp in Hsame. specialize (Hsame team).
    rewrite <- !not_eq_None_Some. by rewrite Hsame.
Qed.

(** X8. Appending seasons to the data set does not rewrite the past: when
    the engine returns on the longer data set it returns on the shorter
    one, every team of the shorter run is a team of the longer one, and
    its history in the longer run starts with its history in the shorter
    run. *)
Theorem histories_are_append_only data1 data2 st2 :
  calculate_elo_ratings (data1 ++ data2) = Done st2 →
  ∃ st1,
    calculate_elo_ratings data1 = Done st1 ∧
    run st1 (events data2) = Done st2 ∧
    ∀ team h1, elo_history st1 !! team = Some h1 →
      ∃ more, elo_history st2 !! team = Some (h1 ++ more).
Proof.
  rewrite !calculate_elo_ratings_run, events_app, run_app.
  intros Hrun.
  pose proof (run_inv initial_state (events data1) inv_initial) as Hinv.
  destruct (run initial_state (events data1)) as [st1|]; [|done].
  exists st1. split_and!; [done..|].
  intros team h1 Hh1. simp in Hinv.
  destruct (run_history_grows st1 (events data2) team h1 Hinv Hh1)
    as [more Hmore].
  rewrite Hrun in Hmore. eauto.
Qed.

End Outcome.

(** ** The labels of a history *)

Section Labels.

Implicit Types (st : state) (team t u ts : str) (m : match_record).

Lemma process_match_labels ts st m st' team :
  inv st → process_match ts st m = Done st' →
  match elo_history st !! team with
  | Some h =>
      ∃ h', elo_history st' !! team = Some h' ∧
            map fst h' = map fst h ++ side_labels team (ts, m)
  | None =>
      match side_labels team (ts, m) with
      | [] => elo_history st' !! team = None
      | first :: more =>
          ∃ h', elo_history st' !! team = Some h' ∧
                map fst h' = first :: first :: more
      end
  end.
Proof.
  intros Hinv Hstep. unfold side_labels. cbn [fst snd].
  destruct (home_score m) as [hs|] eqn:Hh.
  2:{ rewrite process_match_incomplete in Hstep by auto.
      injection Hstep as <-.
      destruct (elo_history st !! team) as [h|] eqn:E; [|done].
      exists h. by rewrite app_nil_r. }
  destruct (away_score m) as [as_|] eqn:Ha.
  2:{ rewrite process_match_incomplete in Hstep by auto.
      injection Hstep as <-.
      destruct (elo_history st !! team) as [h|] eqn:E; [|done].
      exists h. by rewrite app_nil_r. }
  pose proof (process_match_completed ts st m hs as_ Hinv Hh Ha) as H.
  simp in H. destruct (actual_score_of hs as_) as [s|]; [|congruence].
  rewrite H in Hstep. apply (f_equal outcome_state) in Hstep.
  cbn [outcome_state] in Hstep. subst st'. simp.
  set (home := clean_team_name (home_team m)) in *.
  set (away := clean_team_name (away_team m)) in *.
  assert (Hhb : history_before ts st team
                = default [(ts, 1500)] (elo_history st !! team)) by done.
  destruct (decide (away = team)) as [Hat|Hat].
  - subst team. rewrite lookup_insert_eq.
    destruct (decide (home = away)) as [Hha|Hha].
    + rewrite Hha in *. rewrite Hhb.
      destruct (elo_history st !! away) as [h|]; cbn [default].
      * eexists. split; [done|].
        rewrite !map_app. cbn [map fst]. by rewrite <- app_assoc.
      * eexists. split; [done|]. done.
    + rewrite Hhb.
      destruct (elo_history st !! away) as [h|]; cbn [default].
      * eexists. split; [done|]. by rewrite !map_app.
      * eexists. split; [done|]. done.
  - rewrite lookup_insert_ne by done.
    destruct (decide (home = team)) as [Hht|Hht].
    + subst team. rewrite lookup_insert_eq, Hhb.
      destruct (elo_history st !! home) as [h|]; cbn [default].
      * eexists. split; [done|]. by rewrite !map_app.
      * eexists. split; [done|]. done.
    + rewrite lookup_insert_ne by done. rewrite !seed_history_ne by done.
      destruct (elo_history st !! team) as [h|]; [|done].
      exists h. by rewrite app_nil_r.
Qed.

Lemma run_labels st evs st' team :
  inv st → run st evs = Done st' →
  match elo_history st !! team with
  | Some h =>
      ∃ h', elo_history st' !! team = Some h' ∧
            map fst h' = map fst h ++ appearance_labels team evs
  | None =>
      match appearance_labels team evs with
      | [] => elo_history st' !! team = None
      | first :: more =>
          ∃ h', elo_history st' !! team = Some h' ∧
                map fst h' = first :: first :: more
      end
  end.
Proof.
  revert st. induction evs as [|[ts m] evs IH]; intros st Hinv Hrun.
  - injection Hrun as <-. cbn [appearance_labels flat_map].
    destruct (elo_history st !! team) as [h|]; [|done].
    exists h. by rewrite app_nil_r.
  - cbn [run] in Hrun.
    pose proof (process_match_inv ts st m Hinv) as Hinv'.
    destruct (process_match ts st m) as [st1|] eqn:Hstep; [|done].
    simp in Hinv'.
    pose proof (process_match_labels ts st m st1 team Hinv Hstep) as H1.
    pose proof (IH st1 Hinv' Hrun) as H2.
    unfold appearance_labels in *. cbn [flat_map].
    destruct (elo_history st !! team) as [h|].
    + destruct H1 as (h1 & Hh1 & Hl1). rewrite Hh1 in H2.
      destruct H2 as (h' & Hh' & Hl'). exists h'. split; [done|].
      by rewrite Hl', Hl1, <- app_assoc.
    + destruct (side_labels team (ts, m)) as [|first more].
      * rewrite H1 in H2. done.
      * destruct H1 as (h1 & Hh1 & Hl1). rewrite Hh1 in H2.
        destruct H2 as (h' & Hh' & Hl'). exists h'. split; [done|].
        by rewrite Hl', Hl1.
Qed.

(** X10. The timestamp labels of the history the engine returns for a
    team are the label of its first completed match (the baseline entry)
    followed by one label for every side the team plays in a completed
    match, in traversal order; a team that plays in no completed match has
    no history. *)
Theorem history_labels data st team :
  calculate_elo_ratings data = Done st →
  match appearance_labels team (events data) with
  | [] => elo_history st !! team = None
  | first :: more =>
      ∃ h, elo_history st !! team = Some h ∧
           map fst h = first :: first :: more
  end.
Proof.
  intros Hcalc. rewrite calculate_elo_ratings_run in Hcalc.
  pose proof (run_labels initial_state (events data) st team
                inv_initial Hcalc) as H.
  unfold initial_state in H at 1. simp in H. by rewrite lookup_empty in H.
Qed.

End Labels.

(** ** The normaliser only deletes *)

Section OnlyDeletes.

Local Open Scope nat_scope.
Implicit Types (s t x old : str) (c : N).

Lemma replace_from_sublist old skip s :
  replace_from old [] skip s `sublist_of` s.
Proof.
  revert skip. induction s as [|c s IH]; intros skip; [done|].
  cbn [replace_from]. destruct skip as [|k].
  - destruct (startswith (c :: s) old).
    + cbn [app]. apply sublist_cons, IH.
    + apply sublist_skip, IH.
  - apply sublist_cons, IH.
Qed.

Lemma flat_map_singleton s : flat_map (λ c, [c]) s = s.
Proof. induction s as [|c s IH]; [done|]. cbn [flat_map app]. by rewrite IH. Qed.

Lemma replace_sublist s old : replace s old [] `sublist_of` s.
Proof.
  unfold replace. destruct old as [|c old].
  - cbn [app]. by rewrite flat_map_singleton.
  - apply replace_from_sublist.
Qed.

Lemma fold_replace_sublist l x :
  fold_left (λ s old, replace s old []) l x `sublist_of` x.
Proof.
  revert x. induction l as [|old l IH]; intros x; [done|].
  cbn [fold_left]. etrans; [apply IH | apply replace_sublist].
Qed.

Lemma strip_sublist s : strip s `sublist_of` s.
Proof.
  destruct (lstrip_split s) as (l & Hl & _).
  destruct (rstrip_split (lstrip s)) as (r & Hr & _).
  unfold strip. rewrite Hl at 2. apply sublist_inserts_l.
  rewrite Hr at 2. by apply sublist_inserts_r.
Qed.

(** X11. Normalising a name only deletes characters: the result is the
    input with some characters left out, the others in their order, and so
    it is never longer than the input. *)
Theorem clean_team_name_only_deletes x :
  clean_team_name x `sublist_of` x ∧
  length (clean_team_name x) ≤ length x.
Proof.
  assert (H : clean_team_name x `sublist_of` x).
  { rewrite clean_team_name_unfold.
    etrans; [apply strip_sublist | apply fold_replace_sublist]. }
  split; [done | by apply sublist_length].
Qed.

End OnlyDeletes.

(** ** [create_plot] *)

Section Plot.

Implicit Types (fig : list scatter) (items : list (str * list (str * R)))
  (sel team : str).

Lemma zip_map_fst_snd (h : list (str * R)) : zip (map fst h) (map snd h) = h.
Proof.
  induction h as [|[a b] h IH]; [done|]. cbn [map fst snd].
  change (zip (a :: map fst h) (b :: map snd h))
    with ((a, b) :: zip (map fst h) (map snd h)).
  by rewrite IH.
Qed.

Lemma add_traces_None fig items sel :
  add_traces fig items sel = None ↔ ∃ team, (team, []) ∈ items.
Proof.
  revert fig. induction items as [|[team h] items IH]; intros fig.
  - cbn [add_traces]. split; [done|].
    intros [team Hin]. by apply elem_of_nil in Hin.
  - cbn [add_traces]. destruct h as [|e h]; cbn [unzip_history].
    + split; [|done]. intros _. exists team. by left.
    + rewrite IH. split.
      * intros [t Hin]. exists t. by right.
      * intros [t Hin]. apply elem_of_cons in Hin as [[=]|Hin]. by exists t.
Qed.

Lemma add_traces_Some fig items sel fig' :
  add_traces fig items sel = Some fig' →
  ∃ new, fig' = fig ++ new ∧
    map scatter_name new = map fst items ∧
    Forall2 (λ tr it, zip (scatter_x tr) (scatter_y tr) = it.2) new items ∧
    ∀ tr, tr ∈ new →
      scatter_visible tr = true ↔ sel = all_teams ∨ sel = scatter_name tr.
Proof.
  revert fig. induction items as [|[team h] items IH]; intros fig Hadd.
  - injection Hadd as <-. exists []. rewrite app_nil_r.
    split_and!; [done..|]. intros tr Hin. by apply elem_of_nil in Hin.
  - cbn [add_traces] in Hadd. destruct h as [|e h]; [done|].
    cbn [unzip_history] in Hadd.
    apply IH in Hadd as (new & -> & Hn & Hz & Hv).
    eexists (_ :: new). split_and!.
    + by rewrite <- app_assoc.
    + cbn [map scatter_name fst]. by rewrite Hn.
    + constructor; [|done]. cbn [scatter_x scatter_y snd].
      apply zip_map_fst_snd.
    + intros tr [->|Hin]%elem_of_cons; [|by apply Hv].
      cbn [scatter_visible scatter_name].
      destruct (bool_decide (sel = all_teams) || bool_decide (sel = team))
        eqn:E.
      * apply orb_true_iff in E. rewrite !bool_decide_eq_true in E. done.
      * apply orb_false_iff in E. rewrite !bool_decide_eq_false in E.
        split; [done|]. intros [?|?]; by destruct E.
Qed.

Lemma create_plot_traces_aux items sel fig :
  create_plot items sel = Some fig →
  map scatter_name fig = map fst items ∧
  Forall2 (λ tr it, zip (scatter_x tr) (scatter_y tr) = it.2) fig items ∧
  ∀ tr, tr ∈ fig →
    scatter_visible tr = true ↔ sel = all_teams ∨ sel = scatter_name tr.
Proof.
  unfold create_plot. intros Hadd.
  apply add_traces_Some in Hadd as (new & -> & H). by cbn [app].
Qed.

(** X12. [create_plot] raises (the [ValueError] of the unpacking) exactly
    when some team has an empty history. When it returns, it has added one
    trace per team, in the order of the dictionary and named after the
    team; the x and y of a trace zip back to the history of its team; and
    a trace is visible exactly when the selection is "All Teams" or is the
    name of the trace. *)
Theorem create_plot_traces items sel :
  (create_plot items sel = None ↔ ∃ team, (team, []) ∈ items) ∧
  ∀ fig, create_plot items sel = Some fig →
    map scatter_name fig = map fst items ∧
    Forall2 (λ tr it, zip (scatter_x tr) (scatter_y tr) = it.2) fig items ∧
    ∀ tr, tr ∈ fig →
      scatter_visible tr = true ↔ sel = all_teams ∨ sel = scatter_name tr.
Proof.
  split; [apply add_traces_None | apply create_plot_traces_aux].
Qed.

(** No history of a state that satisfies the invariant is empty. *)
Lemma inv_history_nonempty st team h :
  inv st → elo_history st !! team = Some h → h ≠ [].
Proof.
  intros [Hlast Hsame] Hh.
  destruct (elo_ratings st !! team) as [r|] eqn:Er.
  - destruct (Hlast _ _ Er) as (h' & ts & Hh'). rewrite Hh in Hh'.
    injection Hh' as ->. by destruct h'.
  - apply Hsame in Er. congruence.
Qed.

(** X13. [create_plot] never raises on what the engine computed: for the
    history dictionary of any run, taken in any order, and any selection,
    it returns a figure with one trace per team. *)
Theorem create_plot_accepts_engine_output data items sel :
  items ≡ₚ map_to_list (elo_history
                          (outcome_state (calculate_elo_ratings data))) →
  ∃ fig, create_plot items sel = Some fig ∧ length fig = length items.
Proof.
  intros Hperm.
  destruct (create_plot items sel) as [fig|] eqn:Hplot.
  - exists fig. split; [done|].
    destruct (create_plot_traces_aux items sel fig Hplot) as [Hn _].
    apply (f_equal length) in Hn. by rewrite !length_map in Hn.
  - exfalso. apply add_traces_None in Hplot as [team Hin].
    rewrite Hperm in Hin. apply elem_of_map_to_list in Hin.
    eapply inv_history_nonempty; [|exact Hin|done].
    rewrite calculate_elo_ratings_run. apply run_inv, inv_initial.
Qed.

End Plot.

(** ** The further theorems on the sample inputs *)

Section MoreWitnesses.

Lemma seeded_teams_are_keys_witness :
  is_Some
    (elo_history
       (seed (py "Bar") ts_2024_1 (seed (py "Foo") ts_2024_1 initial_state))
     !! py "Foo").
Proof.
  pose proof (seeded_teams_are_keys ts_2024_1 initial_state (foo_vs_bar 2 1)
                reachable_initial) as H.
  cbv zeta in H. cbn [home_team away_team foo_vs_bar] in H.
  rewrite clean_foo, clean_bar in H. by destruct H as (_ & _ & H & _).
Defined.

Lemma teams_are_those_of_completed_matches_witness :
  ∃ st,
    calculate_elo_ratings (single_match_data (foo_vs_bar 2 1)) = Done st ∧
    is_Some (elo_ratings st !! py "Foo") ∧
    is_Some (elo_history st !! py "Foo").
Proof.
  destruct (calculate_single_match (foo_vs_bar 2 1) 2 1 eq_refl eq_refl)
    as (st & _ & Hcalc).
  destruct (teams_are_those_of_completed_matches
              (single_match_data (foo_vs_bar 2 1)) st (py "Foo") Hcalc)
    as [Hr Hh].
  assert (Hfoo : is_Some (elo_ratings st !! py "Foo")).
  { apply Hr. exists ts_2024_1, (foo_vs_bar 2 1). split.
    - rewrite events_single_match. by left.
    - split; [split; by eexists|]. left. apply clean_foo. }
  exists st. split_and!; [done..|]. by apply Hh.
Defined.

Lemma histories_are_append_only_witness :
  ∃ st1 st2,
    calculate_elo_ratings (single_match_data (foo_vs_bar 2 1)) = Done st1 ∧
    run st1 (events (single_match_data (foo_vs_bar 1 1))) = Done st2.
Proof.
  destruct (run_outcome initial_state
              (events (single_match_data (foo_vs_bar 2 1)
                       ++ single_match_data (foo_vs_bar 1 1)))
              inv_initial)
    as [[_ [st2 Hst2]]|[Hn _]].
  - rewrite <- calculate_elo_ratings_run in Hst2.
    destruct (histories_are_append_only _ _ _ Hst2) as (st1 & H1 & H2 & _).
    by exists st1, st2.
  - exfalso. apply Hn. intros ts m hs as_ Hin Hh Ha.
    apply elem_of_cons in Hin as [[= -> ->]|Hin].
    { injection Hh as <-. by injection Ha as <-. }
    apply list_elem_of_singleton in Hin as [= -> ->].
    injection Hh as <-. by injection Ha as <-.
Defined.

Lemma appearance_labels_foo :
  appearance_labels (py "Foo") (events (single_match_data (foo_vs_bar 2 1)))
  = [ts_2024_1].
Proof. vm_compute. reflexivity. Qed.

Lemma history_labels_witness :
  ∃ st h,
    calculate_elo_ratings (single_match_data (foo_vs_bar 2 1)) = Done st ∧
    elo_history st !! py "Foo" = Some h ∧
    map fst h = [ts_2024_1; ts_2024_1].
Proof.
  destruct (calculate_single_match (foo_vs_bar 2 1) 2 1 eq_refl eq_refl)
    as (st & _ & Hcalc).
  pose proof (history_labels _ st (py "Foo") Hcalc) as H.
  rewrite appearance_labels_foo in H. destruct H as (h & Hh & Hl).
  by exists st, h.
Defined.

Lemma create_plot_traces_witness :
  ∃ fig,
    create_plot [(py "Foo", [(ts_2024_1, 1500)])] (py "Bar") = Some fig ∧
    map scatter_name fig = [py "Foo"].
Proof.
  eexists. split; [reflexivity|].
  apply (proj2 (create_plot_traces [(py "Foo", [(ts_2024_1, 1500)])]
                  (py "Bar")) _ eq_refl).
Defined.

Lemma create_plot_accepts_engine_output_witness :
  ∃ fig,
    create_plot
      (map_to_list
         (elo_history
            (outcome_state
               (calculate_elo_ratings
                  (single_match_data (foo_vs_bar 2 1))))))
      all_teams = Some fig ∧
    length fig =
    length
      (map_to_list
         (elo_history
            (outcome_state
               (calculate_elo_ratings
                  (single_match_data (foo_vs_bar 2 1)))))).
Proof.
  by apply (create_plot_accepts_engine_output
              (single_match_data (foo_vs_bar 2 1))).
Defined.

End MoreWitnesses.
